(** * Stream combinators of [streams/]: [earlyZipReadableStreams] and
    [LimitedTransformStream]

    A shallow embedding of [src/streams/early_zip_readable_streams.ts] (the
    file holds both modules) and the properties the specification states
    about them.

    Modelling conventions.
    - The counter [#read] is a [Z]: a count of chunks, exact as long as it
      stays below 2^53, where [+ 1] on doubles is the integers' [+ 1].  The
      [size] given to the constructor is any JavaScript number: a finite
      one is the rational it denotes, and the infinities and [NaN] are
      values of their own.  How the platform prints a number inside a
      template literal is a parameter of the development.
    - [async] code runs in the monad [Eff]: a state transformer that either
      completes normally or throws.  A promise is a value carrying the
      logical time at which it settles and how; [await] moves the clock of
      the merger to that time.
    - The Streams API objects the code talks to (the controller of the
      output, the readers of the sources, [Promise.all]) are modelled by the
      operations the code calls on them, each with the behaviour the
      platform gives it. *)

From stdpp Require Import base list strings pretty.
From Stdlib Require Import ZArith QArith.
Close Scope Q_scope.

(** ** Errors, completions and the effect monad *)

Inductive JsError : Type :=
| RangeError (message : string)
| TypeError (message : string)
| Failure (message : string).

Inductive Completion (A : Type) : Type :=
| Normal (a : A)
| Throw (e : JsError).
Arguments Normal {A} a.
Arguments Throw {A} e.

Definition Eff (S A : Type) : Type := S -> Completion A * S.

Definition ret {S A : Type} (a : A) : Eff S A := fun s => (Normal a, s).

Definition throw {S A : Type} (e : JsError) : Eff S A := fun s => (Throw e, s).

Definition bind {S A B : Type} (m : Eff S A) (k : A -> Eff S B) : Eff S B :=
  fun s =>
    match m s with
    | (Normal a, s') => k a s'
    | (Throw e, s') => (Throw e, s')
    end.

Definition gets {S A : Type} (f : S -> A) : Eff S A := fun s => (Normal (f s), s).

Definition modify {S : Type} (f : S -> S) : Eff S unit := fun s => (Normal tt, f s).

Declare Scope eff_scope.
Delimit Scope eff_scope with eff.
Notation "x <- m ;; k" := (bind m (fun x => k))
  (at level 100, m at next level, right associativity) : eff_scope.
Notation "m ;; k" := (bind m (fun _ => k))
  (at level 100, right associativity) : eff_scope.

(** ** The readable side of a stream, as its controller sees it *)

Inductive StreamState : Type :=
| Readable
| Closed
| Errored (e : JsError).

Section Output.
Context {T : Type}.

(** [enqueued] is every chunk the controller accepted, oldest first. *)
Record Output : Type := mkOutput {
  enqueued : list T;
  state : StreamState
}.

Definition emptyOutput : Output := {| enqueued := []; state := Readable |}.

Definition notWritable : JsError :=
  TypeError "The stream is not in a state that permits this operation".

(** [controller.enqueue(chunk)]: refused unless the stream is readable. *)
Definition enqueue (chunk : T) (o : Output) : Completion unit * Output :=
  match state o with
  | Readable => (Normal tt, {| enqueued := enqueued o ++ [chunk]; state := Readable |})
  | _ => (Throw notWritable, o)
  end.

(** [controller.close()] of a [ReadableStream] controller. *)
Definition close (o : Output) : Completion unit * Output :=
  match state o with
  | Readable => (Normal tt, {| enqueued := enqueued o; state := Closed |})
  | _ => (Throw notWritable, o)
  end.

(** [controller.terminate()] of a [TransformStream] controller: closes the
    readable side, and does nothing when that side is no longer readable. *)
Definition terminate (o : Output) : Completion unit * Output :=
  match state o with
  | Readable => (Normal tt, {| enqueued := enqueued o; state := Closed |})
  | _ => (Normal tt, o)
  end.

(** What the platform does with an exception or rejection of a callback:
    the stream becomes errored, unless it already reached a terminal state. *)
Definition controllerError (e : JsError) (o : Output) : Output :=
  match state o with
  | Readable => {| enqueued := enqueued o; state := Errored e |}
  | _ => o
  end.
End Output.
Arguments Output T : clear implicits.

(** ** JavaScript numbers *)

(** A [number]: a finite double is the rational it denotes. *)
Inductive Number : Type :=
| Finite (q : Q)
| PosInfinity
| NegInfinity
| NaN.

Definition Int (z : Z) : Number := Finite (inject_Z z).
Coercion Int : Z >-> Number.
Bind Scope Z_scope with Number.

(** [n > size] for an integer [n]: the order of the rationals on finite
    numbers, and [false] whenever [size] is [NaN]. *)
Definition exceeds (n : Z) (size : Number) : bool :=
  match size with
  | Finite q => negb (Qle_bool (inject_Z n) q)
  | NegInfinity => true
  | PosInfinity => false
  | NaN => false
  end.

(** [size <= 0]. *)
Definition nonPositive (size : Number) : Prop :=
  match size with
  | Finite q => (q <= 0)%Q
  | NegInfinity => True
  | PosInfinity => False
  | NaN => False
  end.

(** The text of a number inside a template literal, as the platform gives
    it. *)
Class NumberToString : Type := toString : Number -> string.

(** The conversion with which the examples run.  It is the platform's on
    the integers below 10^21 in magnitude, printed as decimal numerals, on
    the infinities and on [NaN]; it gives no text to the other numbers,
    which no example uses. *)
Definition exampleToString : NumberToString :=
  fun size =>
    match size with
    | Finite q =>
        let q' := Qred q in
        if ((Qden q' =? 1)%positive && (Z.abs (Qnum q') <? 10 ^ 21)%Z)%bool
        then pretty (Qnum q') else ""
    | PosInfinity => "Infinity"
    | NegInfinity => "-Infinity"
    | NaN => "NaN"
    end.
#[global] Existing Instance exampleToString.

(** ** [LimitedTransformStream] *)

Module Limited.
Section Limited.
Context {T : Type} `{NumberToString}.

(** [options.error]; the default argument is [{ error: false }]. *)
Record LimitedTransformStreamOptions : Type := mkOptions { error : bool }.

Definition defaultOptions : LimitedTransformStreamOptions := {| error := false |}.

(** The instance: the private field [#read] and the readable side. *)
Record LimitedTransformStream : Type := mkLimited {
  read : Z;
  readable : Output T
}.

(** [#read = 0] and a fresh stream. *)
Definition new : LimitedTransformStream := {| read := 0; readable := emptyOutput |}.

Definition controller (f : Output T -> Completion unit * Output T)
  : Eff LimitedTransformStream unit :=
  fun s => let (c, o) := f (readable s) in (c, {| read := read s; readable := o |}).

Definition incrRead : Eff LimitedTransformStream unit :=
  modify (fun s => {| read := read s + 1; readable := readable s |}).

Definition limitMessage (size : Number) : string :=
  "Exceeded chunk limit of '" +:+ toString size +:+ "'".

(** The [transform] callback given to [super]. *)
Definition transform (size : Number) (options : LimitedTransformStreamOptions) (chunk : T)
  : Eff LimitedTransformStream unit :=
  (r <- gets read ;;
   if exceeds (r + 1) size then
     if error options then throw (RangeError (limitMessage size))
     else controller terminate
   else
     incrRead ;; controller (enqueue chunk))%eff.

Definition fail (e : JsError) (s : LimitedTransformStream) : LimitedTransformStream :=
  {| read := read s; readable := controllerError e (readable s) |}.

(** The end of the input closes a readable side that is still open. *)
Definition finish (s : LimitedTransformStream) : LimitedTransformStream :=
  match state (readable s) with
  | Readable => {| read := read s;
                   readable := {| enqueued := enqueued (readable s); state := Closed |} |}
  | _ => s
  end.

(** The platform's side of one chunk written to the stream: [transform] is
    called while the stream still takes chunks, and an exception of
    [transform] errors the stream. *)
Definition write (size : Number) (options : LimitedTransformStreamOptions)
    (chunk : T) (s : LimitedTransformStream) : LimitedTransformStream :=
  match state (readable s) with
  | Readable =>
      match transform size options chunk s with
      | (Normal _, s') => s'
      | (Throw e, s') => fail e s'
      end
  | _ => s
  end.

(** [source.pipeThrough(stream)] for a source of [chunks]: they are written
    one at a time, in order, and then the input ends. *)
Fixpoint pipeThrough (size : Number) (options : LimitedTransformStreamOptions)
    (chunks : list T) (s : LimitedTransformStream) : LimitedTransformStream :=
  match chunks with
  | [] => finish s
  | chunk :: rest => pipeThrough size options rest (write size options chunk s)
  end.

(** How many more chunks an instance forwards. *)
Definition room (size : Z) (s : LimitedTransformStream) : nat :=
  Z.to_nat (size - read s).

(** The chunks the consumer of the readable side gets, and how it ends. *)
Definition output (s : LimitedTransformStream) : list T * StreamState :=
  (enqueued (readable s), state (readable s)).
End Limited.
Arguments LimitedTransformStream T : clear implicits.
End Limited.

(** ** [earlyZipReadableStreams] *)

Module EarlyZip.
(** A promise: the logical time at which it settles, and how. *)
Record Promise (A : Type) : Type := mkPromise {
  settles : nat;
  outcome : Completion A
}.
Arguments mkPromise {A} settles outcome.
Arguments settles {A} p.
Arguments outcome {A} p.

Section EarlyZip.
Context {T : Type}.

(** The [{ done, value }] of a read. *)
Inductive ReadResult : Type :=
| Value (value : T)
| Done.

(** A source stream, seen through its reader: the chunks still to come, how
    the stream ends after them ([None]: it closes; [Some e]: it errors),
    how long a read takes, how long the source's own cancellation takes and
    whether it rejects, and whether the source has signalled its end
    ([closed]): a read has returned [done], the reader was cancelled, or
    the source has asked for the close ahead of the reads. *)
Record Reader : Type := mkReader {
  chunks : list T;
  ending : option JsError;
  readDelay : nat;
  cancelDelay : nat;
  cancelResult : option JsError;
  closed : bool
}.

(** [ReadableStream.from(list).getReader()]. *)
Definition from (l : list T) : Reader :=
  {| chunks := l; ending := None; readDelay := 0; cancelDelay := 0;
     cancelResult := None; closed := false |}.

Definition withChunks (rest : list T) (r : Reader) : Reader :=
  {| chunks := rest; ending := ending r; readDelay := readDelay r;
     cancelDelay := cancelDelay r; cancelResult := cancelResult r;
     closed := closed r |}.

(** The reader after a read of it has returned [done]. *)
Definition ended (r : Reader) : Reader :=
  {| chunks := chunks r; ending := ending r; readDelay := readDelay r;
     cancelDelay := cancelDelay r; cancelResult := cancelResult r;
     closed := true |}.

(** The stream is in the closed state: the source has signalled a clean end
    and no chunk is left. *)
Definition isClosed (r : Reader) : bool :=
  match chunks r, ending r with
  | [], None => closed r
  | _, _ => false
  end.

(** [reader.read()], called at time [now]. *)
Definition Reader_read (now : nat) (r : Reader) : Promise ReadResult * Reader :=
  match chunks r with
  | value :: rest =>
      (mkPromise (now + readDelay r) (Normal (Value value)), withChunks rest r)
  | [] =>
      match ending r with
      | None => (mkPromise (now + readDelay r) (Normal Done), ended r)
      | Some e => (mkPromise (now + readDelay r) (Throw e), r)
      end
  end.

(** How a cancellation of the reader settles, when, and what it leaves: on
    a closed stream it fulfils at once and the source is not asked;
    otherwise the source's own cancellation runs and the stream is closed,
    so that nothing more can be read from it. *)
Definition cancelOutcome (r : Reader) : Completion unit :=
  if isClosed r then Normal tt
  else match cancelResult r with None => Normal tt | Some e => Throw e end.

Definition cancelTime (now : nat) (r : Reader) : nat :=
  if isClosed r then now else now + cancelDelay r.

Definition release (r : Reader) : Reader :=
  if isClosed r then r
  else {| chunks := []; ending := None; readDelay := readDelay r;
          cancelDelay := cancelDelay r; cancelResult := cancelResult r;
          closed := true |}.

(** [reader.cancel(reason)], called at time [now]. *)
Definition Reader_cancel (now : nat) (r : Reader) : Promise unit * Reader :=
  (mkPromise (cancelTime now r) (cancelOutcome r), release r).

(** The rejection [Promise.all] sees first: the earliest one, and among
    rejections of the same instant the one of the lowest index. *)
Fixpoint earliestRejection (ps : list (Promise unit)) : option (nat * JsError) :=
  match ps with
  | [] => None
  | p :: ps' =>
      match outcome p, earliestRejection ps' with
      | Throw e, Some (t', e') =>
          if settles p <=? t' then Some (settles p, e) else Some (t', e')
      | Throw e, None => Some (settles p, e)
      | Normal _, later => later
      end
  end.

(** [Promise.all(ps)]: fulfilled once every promise is, rejected as soon as
    one of them rejects. *)
Definition Promise_all (ps : list (Promise unit)) : Promise unit :=
  match earliestRejection ps with
  | Some (t, e) => mkPromise t (Throw e)
  | None => mkPromise (max_list (settles <$> ps)) (Normal tt)
  end.

(** The calls made on the readers, kept for the statements about them. *)
Inductive Call : Type :=
| ReadCall (i issued settled : nat)
| CancelCall (i : nat) (reason : string) (issued settled : nat).

(** The closure of [earlyZipReadableStreams]: the [readers], the controller
    of the returned stream, the time, and the calls made so far. *)
Record Zip : Type := mkZip {
  readers : list Reader;
  out : Output T;
  clock : nat;
  calls : list Call
}.

Definition earlyZipReadableStreams (streams : list Reader) : Zip :=
  {| readers := streams; out := emptyOutput; clock := 0; calls := [] |}.

Definition undefinedReader : JsError :=
  TypeError "Cannot read properties of undefined".

(** [readers[i]!.read()]. *)
Definition readAt (i : nat) : Eff Zip (Promise ReadResult) :=
  fun w =>
    match readers w !! i with
    | Some r =>
        let (p, r') := Reader_read (clock w) r in
        (Normal p,
         {| readers := <[i:=r']> (readers w); out := out w; clock := clock w;
            calls := calls w ++ [ReadCall i (clock w) (settles p)] |})
    | None => (Throw undefinedReader, w)
    end.

(** [await p]: the code resumes when [p] has settled. *)
Definition await {A : Type} (p : Promise A) : Eff Zip A :=
  fun w =>
    (outcome p,
     {| readers := readers w; out := out w; clock := clock w `max` settles p;
        calls := calls w |}).

(** [readers.map((reader) => reader.cancel(reason))]: every reader is
    cancelled at once, none of the calls is awaited here. *)
Definition cancelEach (reason : string) : Eff Zip (list (Promise unit)) :=
  fun w =>
    let now := clock w in
    (Normal ((fun r => (Reader_cancel now r).1) <$> readers w),
     {| readers := (fun r => (Reader_cancel now r).2) <$> readers w;
        out := out w; clock := now;
        calls := calls w ++
          imap (fun j r => CancelCall j reason now (settles (Reader_cancel now r).1))
               (readers w) |}).

Definition controller (f : Output T -> Completion unit * Output T) : Eff Zip unit :=
  fun w =>
    let (c, o) := f (out w) in
    (c, {| readers := readers w; out := o; clock := clock w; calls := calls w |}).

Definition endedReason (i : nat) : string :=
  "Stream at index " +:+ pretty i +:+ " ended".

(** The loop of [pull], from index [i] with [todo] readers left. *)
Fixpoint pull_from (todo i : nat) : Eff Zip unit :=
  match todo with
  | 0 => ret tt
  | S todo' =>
      (p <- readAt i ;;
       r <- await p ;;
       match r with
       | Done =>
           ps <- cancelEach (endedReason i) ;;
           await (Promise_all ps) ;;
           controller close
       | Value value =>
           controller (enqueue value) ;;
           pull_from todo' (S i)
       end)%eff
  end.

(** The [pull] callback: one round. *)
Definition pull : Eff Zip unit :=
  (n <- gets (fun w => length (readers w)) ;; pull_from n 0)%eff.

(** The [cancel] callback. *)
Definition cancel (reason : string) : Eff Zip unit :=
  (ps <- cancelEach reason ;; await (Promise_all ps))%eff.

Definition withOut (o : Output T) (w : Zip) : Zip :=
  {| readers := readers w; out := o; clock := clock w; calls := calls w |}.

(** The platform's side of a pull that runs to its end: [pull] is called
    on a readable stream only, one call at a time, and its rejection errors
    the stream.  A pull that the consumer's cancellation meets at one of
    its waits is [cancelDuringRead] or [cancelDuringBatch] below. *)
Definition pullStep (w : Zip) : Zip :=
  match state (out w) with
  | Readable =>
      match pull w with
      | (Normal _, w') => w'
      | (Throw e, w') => withOut (controllerError e (out w')) w'
      end
  | _ => w
  end.

(** The state after [n] pulls of the platform. *)
Definition afterPulls (n : nat) (w : Zip) : Zip := Nat.iter n pullStep w.

(** Reading the returned stream to its end, as [Array.fromAsync] does:
    [None] when [fuel] pulls do not bring it to a terminal state. *)
Fixpoint drain (fuel : nat) (w : Zip) : option Zip :=
  match state (out w) with
  | Readable =>
      match fuel with
      | 0 => None
      | S fuel' => drain fuel' (pullStep w)
      end
  | _ => Some w
  end.


(** The loop of [pull] from the point where the read of reader [i] has
    settled with [r]: what a pull suspended at [await readers[i]!.read()]
    does when it resumes, with [todo] readers left after [i]. *)
Definition pull_resume (todo i : nat) (r : ReadResult) : Eff Zip unit :=
  match r with
  | Done =>
      (ps <- cancelEach (endedReason i) ;;
       await (Promise_all ps) ;;
       controller close)%eff
  | Value value =>
      (controller (enqueue value) ;;
       pull_from todo (S i))%eff
  end.



(** *** Vocabulary of the statements *)

Definition reads (cs : list Call) : list (nat * (nat * nat)) :=
  omap (fun c => match c with
                 | ReadCall i issued settled => Some (i, (issued, settled))
                 | CancelCall _ _ _ _ => None
                 end) cs.

(** The calls made between the states [w] and [w']. *)
Definition newCalls (w w' : Zip) : list Call := drop (length (calls w)) (calls w').

(** A reader after one successful read, and the chunk that read gave. *)
Definition pop (r : Reader) : Reader := withChunks (tail (chunks r)) r.

Definition next (r : Reader) : option T := head (chunks r).

(** The calls of successful reads on the consecutive readers [rs], the
    first of index [i] and issued at [t], each issued when the one before
    has settled; and the time at which the last of them settles. *)
Fixpoint readCalls (i t : nat) (rs : list Reader) : list Call :=
  match rs with
  | [] => []
  | r :: rs' => ReadCall i t (t + readDelay r) :: readCalls (S i) (t + readDelay r) rs'
  end.

Definition readTime (t : nat) (rs : list Reader) : nat :=
  foldl (fun t r => t + readDelay r) t rs.

(** The state when the read of reader [i], then [r], has settled and left
    [r'] in its place. *)
Definition afterRead (i : nat) (r r' : Reader) (w : Zip) : Zip :=
  {| readers := <[i:=r']> (readers w); out := out w;
     clock := clock w + readDelay r;
     calls := calls w ++ [ReadCall i (clock w) (clock w + readDelay r)] |}.

(** The state of a round that has read a chunk from each of [pre] and then
    the end of [r], which [suf] follow. *)
Definition atEnd (pre : list Reader) (r : Reader) (suf : list Reader) (w : Zip) : Zip :=
  {| readers := (pop <$> pre) ++ ended r :: suf;
     out := {| enqueued := enqueued (out w) ++ omap next pre; state := Readable |};
     clock := readTime (clock w) (pre ++ [r]);
     calls := calls w ++ readCalls 0 (clock w) (pre ++ [r]) |}.


(** The batch of cancellations issued at [t] with [reason] on [rs]. *)
Definition cancelCalls (reason : string) (t : nat) (rs : list Reader) : list Call :=
  imap (fun j r => CancelCall j reason t (cancelTime t r)) rs.

Definition cancelPromises (t : nat) (rs : list Reader) : list (Promise unit) :=
  (fun r => (Reader_cancel t r).1) <$> rs.

Definition released (rs : list Reader) : list Reader := release <$> rs.


(** Every neighbouring pair of [l] is in [R]. *)
Fixpoint chain {A : Type} (R : A -> A -> Prop) (l : list A) : Prop :=
  match l with
  | a :: (b :: _) as l' => R a b /\ chain R l'
  | _ => True
  end.

(** Read [b] comes next after read [a] among [n] sources: it is issued when
    [a] has settled, on the next source of the round, or on source [0] when
    [a] was the read of the last source. *)
Definition follows (n : nat) (a b : nat * (nat * nat)) : Prop :=
  a.2.2 <= b.2.1 /\ (b.1 = S a.1 \/ (b.1 = 0 /\ S a.1 = n)).

(** The reads made so far came one after the other: each neighbouring pair
    is in [follows], the first read was on source [0], the last one has
    settled, and it was on the last source if the stream is still readable. *)
Definition sequential (w : Zip) : Prop :=
  let n := length (readers w) in
  chain (follows n) (reads (calls w))
  /\ (forall a, head (reads (calls w)) = Some a -> a.1 = 0)
  /\ (forall a, last (reads (calls w)) = Some a ->
        a.2.2 <= clock w /\ (state (out w) = Readable -> S a.1 = n)).

(** Round-robin order: [k] rounds, each taking the head of every list. *)
Fixpoint roundRobin (k : nat) (ls : list (list T)) : list T :=
  match k with
  | 0 => []
  | S k' => omap head ls ++ roundRobin k' (tail <$> ls)
  end.

(** The cancellations among the calls [cs]: the reader and the reason. *)
Definition cancels (cs : list Call) : list (nat * string) :=
  omap (fun c => match c with
                 | CancelCall i reason _ _ => Some (i, reason)
                 | ReadCall _ _ _ => None
                 end) cs.

(** How many of the calls [cs] are reads of reader [j]. *)
Definition readCount (j : nat) (cs : list Call) : nat :=
  length (filter (fun a => a.1 = j) (reads cs)).
End EarlyZip.
Arguments Reader T : clear implicits.
Arguments Zip T : clear implicits.
Arguments ReadResult T : clear implicits.

(** *** Sources used as examples *)



End EarlyZip.

(** * Properties of [LimitedTransformStream] *)

Section LimitedFacts.
Import Limited.
Context {T : Type} `{NumberToString}.
Implicit Types (s : LimitedTransformStream T) (chunk : T) (chunks rest : list T).
Implicit Types (options : LimitedTransformStreamOptions).

Local Open Scope Z_scope.

(** On an integer [size] the comparison is that of the integers. *)
Lemma exceeds_Int (n z : Z) : exceeds n z = (n >? z).
Proof.
  cbn. unfold Qle_bool. cbn. rewrite !Z.mul_1_r, Z.gtb_ltb.
  symmetry. apply Z.ltb_antisym.
Qed.

(** A number that is not positive is below every count. *)
Lemma exceeds_nonPositive (n : Z) (size : Number) :
  0 < n -> nonPositive size -> exceeds n size = true.
Proof.
  intros Hn Hsize. destruct size as [q| | |]; try done. cbn.
  destruct (Qle_bool (inject_Z n) q) eqn:Hle; [|done].
  apply Qle_bool_iff in Hle. cbn in Hsize.
  pose proof (Qle_trans _ _ _ Hle Hsize) as Hn0.
  unfold Qle in Hn0. cbn in Hn0. lia.
Qed.

Lemma transform_exceeds (size : Number) options chunk s :
  exceeds (read s + 1) size = true ->
  transform size options chunk s =
    if error options then (Throw (RangeError (limitMessage size)), s)
    else controller terminate s.
Proof.
  intros Hover. unfold transform, bind, gets. cbn. rewrite Hover.
  by destruct (error options).
Qed.

Lemma transform_over (size : Z) options chunk s :
  read s + 1 > size ->
  transform size options chunk s =
    if error options then (Throw (RangeError (limitMessage size)), s)
    else controller terminate s.
Proof.
  intros Hover. apply transform_exceeds. rewrite exceeds_Int.
  destruct (Z.gtb_spec (read s + 1) size) as [_|Hle]; [done|lia].
Qed.

Lemma transform_under (size : Z) options chunk s :
  read s + 1 <= size ->
  state (readable s) = Readable ->
  transform size options chunk s =
    (Normal tt,
     {| read := read s + 1;
        readable := {| enqueued := enqueued (readable s) ++ [chunk];
                       state := Readable |} |}).
Proof.
  intros Hle Hst. unfold transform, bind, gets. cbn [fst snd].
  rewrite exceeds_Int.
  destruct (Z.gtb_spec (read s + 1) size) as [Hgt|_]; [lia|].
  unfold incrRead, modify, controller, enqueue. simpl. by rewrite Hst.
Qed.

Lemma room_over size s : read s + 1 > size -> room size s = 0%nat.
Proof. unfold room. lia. Qed.

Lemma room_under size s s' :
  read s + 1 <= size -> read s' = read s + 1 ->
  room size s = S (room size s').
Proof. unfold room. lia. Qed.

(** A stream in a terminal state takes no chunk. *)
Lemma write_terminal size options chunk s :
  state (readable s) <> Readable -> write size options chunk s = s.
Proof. intros Hst. unfold write. by destruct (state (readable s)). Qed.

Lemma pipeThrough_terminal size options chunks : forall s,
  state (readable s) <> Readable -> pipeThrough size options chunks s = s.
Proof.
  induction chunks as [|chunk rest IH]; intros s Hst; simpl.
  - unfold finish. by destruct (state (readable s)).
  - rewrite write_terminal by done. by apply IH.
Qed.

(** The chunk that would exceed the limit. *)
Lemma write_exceeds (size : Number) options chunk s :
  state (readable s) = Readable ->
  exceeds (read s + 1) size = true ->
  write size options chunk s =
    {| read := read s;
       readable :=
         {| enqueued := enqueued (readable s);
            state := if error options
                     then Errored (RangeError (limitMessage size))
                     else Closed |} |}.
Proof.
  intros Hst Hover. unfold write. rewrite Hst, transform_exceeds by done.
  destruct (error options).
  - unfold fail, controllerError. by rewrite Hst.
  - unfold controller, terminate. by rewrite Hst.
Qed.

Lemma write_over (size : Z) options chunk s :
  state (readable s) = Readable ->
  read s + 1 > size ->
  write size options chunk s =
    {| read := read s;
       readable :=
         {| enqueued := enqueued (readable s);
            state := if error options
                     then Errored (RangeError (limitMessage size))
                     else Closed |} |}.
Proof.
  intros Hst Hover. apply write_exceeds; [done|]. rewrite exceeds_Int.
  destruct (Z.gtb_spec (read s + 1) size) as [_|Hle]; [done|lia].
Qed.

(** A chunk within the limit. *)
Lemma write_under (size : Z) options chunk s :
  state (readable s) = Readable ->
  read s + 1 <= size ->
  write size options chunk s =
    {| read := read s + 1;
       readable := {| enqueued := enqueued (readable s) ++ [chunk];
                      state := Readable |} |}.
Proof.
  intros Hst Hle. unfold write. by rewrite Hst, transform_under.
Qed.

(** What a pipe through a readable instance does, whatever its counter. *)
Lemma pipeThrough_readable (size : Z) options chunks : forall s,
  state (readable s) = Readable ->
  let s' := pipeThrough size options chunks s in
  enqueued (readable s') = enqueued (readable s) ++ take (room size s) chunks
  /\ state (readable s') =
       (if decide (length chunks <= room size s)%nat then Closed
        else if error options then Errored (RangeError (limitMessage size))
        else Closed)
  /\ read s' = read s + Z.of_nat (room size s `min` length chunks).
Proof.
  induction chunks as [|chunk rest IH]; intros s Hst; cbn zeta.
  - rewrite decide_True by (simpl; lia).
    rewrite take_nil, app_nil_r. cbn [pipeThrough]. unfold finish.
    rewrite Hst. simpl. split_and!; [done..|lia].
  - cbn [pipeThrough].
    destruct (Z_gt_le_dec (read s + 1) size) as [Hover|Hle].
    + rewrite write_over by done. rewrite (room_over _ _ Hover).
      rewrite decide_False by (simpl; lia).
      rewrite pipeThrough_terminal by (simpl; by destruct (error options)).
      simpl. rewrite app_nil_r. split_and!; [done..|lia].
    + rewrite write_under by done.
      set (s1 := {| read := read s + 1; readable := _ |}).
      specialize (IH s1 eq_refl). cbn zeta in IH.
      destruct IH as (Henq & Hstate & Hread).
      rewrite (room_under size s s1) by done.
      rewrite Henq, Hstate, Hread. simpl.
      split; [by rewrite <- app_assoc|]. split.
      * destruct (decide (length rest <= room size s1)%nat);
          [rewrite decide_True by lia | rewrite decide_False by lia]; done.
      * lia.
Qed.

(** C2. With a positive [size = k] and [m] chunks piped through a new
    instance: for [m <= k] the output is the [m] chunks and a clean close;
    for [m > k] it is the first [k] chunks and then a clean close when
    [options.error] is off, the limit-exceeded [RangeError] when it is on;
    the output never holds more than [k] chunks. *)
Theorem limited_output (k : Z) options chunks :
  0 < k ->
  let s := pipeThrough k options chunks new in
  let m := Z.of_nat (length chunks) in
  (m <= k -> output s = (chunks, Closed))
  /\ (k < m -> error options = false ->
      output s = (take (Z.to_nat k) chunks, Closed))
  /\ (k < m -> error options = true ->
      output s = (take (Z.to_nat k) chunks, Errored (RangeError (limitMessage k))))
  /\ Z.of_nat (length (enqueued (readable s))) <= k.
Proof.
  intros Hk s m.
  destruct (pipeThrough_readable k options chunks new eq_refl) as (Henq & Hst & _).
  fold s in Henq, Hst. unfold output.
  assert (Hroom : room k (new (T:=T)) = Z.to_nat k)
    by (unfold room; simpl; f_equal; lia).
  rewrite Hroom in Henq, Hst. simpl in Henq.
  repeat split.
  - intros Hm. rewrite Henq, Hst. rewrite decide_True by lia.
    by rewrite take_ge by lia.
  - intros Hm Hoff. rewrite Henq, Hst, decide_False by lia. by rewrite Hoff.
  - intros Hm Hon. rewrite Henq, Hst, decide_False by lia. by rewrite Hon.
  - rewrite Henq, length_take. lia.
Qed.

(** C4. With a positive [size], the counter [#read] of a new instance is at
    most [size], every transform step keeps it so, and a step on a chunk
    that would take it above [size] leaves the counter and the forwarded
    chunks as they were and ends the stream: terminated, or errored with
    the limit-exceeded [RangeError].  Hence the counter is at most [size]
    after any number of chunks. *)
Theorem read_le_size (size : Z) options :
  0 < size ->
  read (new (T:=T)) <= size
  /\ (forall chunk s, read s <= size -> read (write size options chunk s) <= size)
  /\ (forall chunk s,
        state (readable s) = Readable -> read s + 1 > size ->
        let s' := write size options chunk s in
        read (transform size options chunk s).2 = read s
        /\ read s' = read s
        /\ enqueued (readable s') = enqueued (readable s)
        /\ state (readable s') =
             (if error options then Errored (RangeError (limitMessage size))
              else Closed))
  /\ (forall chunks, read (pipeThrough size options chunks new) <= size).
Proof.
  intros Hsize. split_and!.
  - simpl. lia.
  - intros chunk s Hinv.
    destruct (state (readable s)) eqn:Hst;
      [|rewrite write_terminal by (by rewrite Hst); done..].
    destruct (Z_gt_le_dec (read s + 1) size) as [Hover|Hle].
    + by rewrite write_over.
    + rewrite write_under by done. simpl. lia.
  - intros chunk s Hst Hover. cbn zeta.
    rewrite write_over, transform_over by done. simpl. split_and!; try done.
    destruct (error options); [done|].
    unfold controller, terminate. by rewrite Hst.
  - intros chunks.
    destruct (pipeThrough_readable size options chunks new eq_refl) as (_ & _ & Hread).
    rewrite Hread. unfold room. simpl. lia.
Qed.

(** C7. With [options.error] on, a chunk for which [#read + 1 > size] makes
    [transform] throw a [RangeError] whose message holds [size], as the
    platform prints it; the stream is then errored with it, keeps the
    chunks forwarded before, and takes none of the chunks that follow.
    This holds for every number [size], an integer or not, and for a
    counter in the range in which doubles count exactly. *)
Theorem limit_exceeded_error (size : Number) chunk rest s :
  state (readable s) = Readable ->
  0 <= read s < 2 ^ 53 ->
  exceeds (read s + 1) size = true ->
  let options := {| error := true |} in
  let e := RangeError ("Exceeded chunk limit of '" +:+ toString size +:+ "'") in
  transform size options chunk s = (Throw e, s)
  /\ pipeThrough size options (chunk :: rest) s = fail e s
  /\ output (fail e s) = (enqueued (readable s), Errored e)
  /\ read (fail e s) = read s.
Proof.
  intros Hst _ Hover options e. split_and!.
  - by rewrite transform_exceeds.
  - cbn [pipeThrough]. rewrite write_exceeds by done. simpl.
    rewrite pipeThrough_terminal by done.
    unfold fail, controllerError. by rewrite Hst.
  - unfold output, fail, controllerError. by rewrite Hst.
  - done.
Qed.

(** C10. No [size] is refused: with any number [size <= 0], an integer, a
    fraction or the negative infinity, the first chunk already takes the
    over-limit branch, so no chunk is ever forwarded; the output of a
    non-empty input is a clean close when [options.error] is off and the
    [RangeError], raised on the first chunk, when it is on. *)
Theorem nonpositive_size (size : Number) options chunk rest :
  nonPositive size ->
  (transform size options chunk new).1 =
    (if error options then Throw (RangeError (limitMessage size)) else Normal tt)
  /\ write size options chunk new = pipeThrough size options (chunk :: rest) new
  /\ output (pipeThrough size options (chunk :: rest) new) =
       ([], if error options then Errored (RangeError (limitMessage size))
            else Closed).
Proof.
  intros Hsize.
  assert (Hover : exceeds (read (new (T:=T)) + 1) size = true)
    by (by apply exceeds_nonPositive).
  split_and!.
  - rewrite transform_exceeds by done. by destruct (error options).
  - cbn [pipeThrough]. rewrite write_exceeds by done.
    rewrite pipeThrough_terminal; [done|]. simpl. by destruct (error options).
  - cbn [pipeThrough]. rewrite write_exceeds by done.
    rewrite pipeThrough_terminal; [done|]. simpl. by destruct (error options).
Qed.
End LimitedFacts.

Lemma limited_output_witness :
  (0 < 1)%Z
  /\ Limited.output
       (Limited.pipeThrough 1 {| Limited.error := true |} ["1234"; "5678"] Limited.new)
     = (["1234"], Errored (RangeError "Exceeded chunk limit of '1'")).
Proof.
  split; [lia|].
  destruct (limited_output 1 {| Limited.error := true |} ["1234"; "5678"])
    as (_ & _ & Hon & _); [lia|].
  exact (Hon ltac:(simpl; lia) eq_refl).
Defined.

Lemma read_le_size_witness :
  (0 < 2)%Z
  /\ (Limited.read (Limited.pipeThrough 2 Limited.defaultOptions ["a"; "b"; "c"] Limited.new)
      <= 2)%Z.
Proof.
  split; [lia|].
  apply (read_le_size (T:=string) 2 Limited.defaultOptions); lia.
Defined.

Lemma limit_exceeded_error_witness :
  Limited.pipeThrough 1 {| Limited.error := true |} ["5678"; "9"]
    {| Limited.read := 1;
       Limited.readable := {| enqueued := ["1234"]; state := Readable |} |}
  = {| Limited.read := 1;
       Limited.readable :=
         {| enqueued := ["1234"];
            state := Errored (RangeError "Exceeded chunk limit of '1'") |} |}.
Proof.
  destruct (limit_exceeded_error 1 "5678" ["9"]
              {| Limited.read := 1;
                 Limited.readable := {| enqueued := ["1234"]; state := Readable |} |})
    as (_ & Hpipe & _); [reflexivity | simpl; lia | reflexivity |].
  exact Hpipe.
Defined.

Lemma nonpositive_size_witness :
  nonPositive NegInfinity
  /\ Limited.output
       (Limited.pipeThrough NegInfinity {| Limited.error := true |} ["1234"; "5678"]
          Limited.new)
     = ([], Errored (RangeError "Exceeded chunk limit of '-Infinity'")).
Proof.
  split; [exact I|].
  destruct (nonpositive_size NegInfinity {| Limited.error := true |} "1234" ["5678"])
    as (_ & _ & Hout); [exact I|].
  exact Hout.
Defined.

(** * Properties of [earlyZipReadableStreams] *)

Section EarlyZipFacts.
Import EarlyZip.
Context {T : Type}.
Implicit Types (w : Zip T) (r : Reader T) (rs pre mid suf : list (Reader T)).
Implicit Types (i j n todo t : nat) (reason : string).

Lemma bind_assoc {S A B C : Type} (m : Eff S A) (f : A -> Eff S B) (g : B -> Eff S C) s :
  bind (bind m f) g s = bind m (fun a => bind (f a) g) s.
Proof. unfold bind. by destruct (m s) as [[a|e] s']. Qed.

(** *** One turn of the loop of [pull] *)

Lemma pull_from_value todo i w r value rest :
  readers w !! i = Some r ->
  chunks r = value :: rest ->
  state (out w) = Readable ->
  pull_from (S todo) i w =
    pull_from todo (S i)
      (withOut {| enqueued := enqueued (out w) ++ [value]; state := Readable |}
               (afterRead i r (withChunks rest r) w)).
Proof.
  intros Hi Hchunks Hst. cbn [pull_from]. unfold bind at 1. unfold readAt.
  rewrite Hi. unfold Reader_read. rewrite Hchunks. cbn.
  unfold bind, controller, enqueue. cbn. rewrite Hst.
  unfold afterRead, withOut. cbn. by rewrite Nat.max_r by lia.
Qed.

Lemma pull_from_done todo i w r :
  readers w !! i = Some r ->
  chunks r = [] ->
  ending r = None ->
  pull_from (S todo) i w =
    (cancel (endedReason i) ;; controller close)%eff (afterRead i r (ended r) w).
Proof.
  intros Hi Hchunks Hend. unfold cancel. rewrite bind_assoc.
  cbn [pull_from]. unfold bind at 1. unfold readAt.
  rewrite Hi. unfold Reader_read. rewrite Hchunks, Hend. cbn.
  unfold afterRead. by rewrite Nat.max_r by lia.
Qed.

Lemma pull_from_failed todo i w r e :
  readers w !! i = Some r ->
  chunks r = [] ->
  ending r = Some e ->
  pull_from (S todo) i w = (Throw e, afterRead i r r w).
Proof.
  intros Hi Hchunks Hend. cbn [pull_from]. unfold bind at 1. unfold readAt.
  rewrite Hi. unfold Reader_read. rewrite Hchunks, Hend. cbn.
  unfold afterRead. by rewrite Nat.max_r by lia.
Qed.

(** The batch both callbacks await. *)
Lemma cancel_eq reason w :
  cancel reason w =
    (outcome (Promise_all (cancelPromises (clock w) (readers w))),
     {| readers := released (readers w); out := out w;
        clock := clock w `max` settles (Promise_all (cancelPromises (clock w) (readers w)));
        calls := calls w ++ cancelCalls reason (clock w) (readers w) |}).
Proof. reflexivity. Qed.

(** Successful reads on the readers [mid], which follow [pre]. *)
Lemma pull_from_reads mid : forall pre suf todo w,
  readers w = pre ++ mid ++ suf ->
  Forall (fun r => chunks r <> []) mid ->
  state (out w) = Readable ->
  pull_from (length mid + todo) (length pre) w =
    pull_from todo (length pre + length mid)
      {| readers := pre ++ (pop <$> mid) ++ suf;
         out := {| enqueued := enqueued (out w) ++ omap next mid; state := Readable |};
         clock := readTime (clock w) mid;
         calls := calls w ++ readCalls (length pre) (clock w) mid |}.
Proof.
  induction mid as [|r mid IH]; intros pre suf todo w Hrs Hmid Hst.
  - destruct w as [rs [enq st] t cs]. simpl in *. subst.
    by rewrite !app_nil_r, Nat.add_0_r.
  - apply Forall_cons in Hmid as [Hr Hmid].
    destruct (chunks r) as [|value rest] eqn:Hchunks; [done|].
    cbn [length Nat.add].
    rewrite (pull_from_value _ _ _ r value rest); [|by rewrite Hrs; apply list_lookup_middle|done..].
    set (w1 := withOut _ _).
    specialize (IH (pre ++ [withChunks rest r]) suf todo w1).
    rewrite length_app in IH. cbn [length] in IH.
    rewrite Nat.add_1_r in IH. rewrite IH; [|subst w1; cbn..|done|done].
    + subst w1. cbn. unfold pop, next. rewrite Hchunks. cbn.
      rewrite <- !app_assoc. cbn. by rewrite Nat.add_succ_r.
    + rewrite Hrs. rewrite <- (Nat.add_0_r (length pre)).
      rewrite insert_app_r. cbn. by rewrite <- app_assoc.
Qed.

(** *** [Promise.all] *)

Lemma earliestRejection_settled t rs :
  Forall (fun r => cancelOutcome r = Normal tt) rs ->
  earliestRejection (cancelPromises t rs) = None.
Proof.
  induction 1 as [|r rs Hr _ IH]; [done|].
  unfold cancelPromises in *. rewrite fmap_cons. cbn [earliestRejection].
  rewrite IH. unfold Reader_cancel. cbn. by rewrite Hr.
Qed.


(** A source whose own cancellation does not reject is cancelled without
    an error, whatever the state of its stream. *)
Lemma cancelOutcome_ok r : cancelResult r = None -> cancelOutcome r = Normal tt.
Proof. intros Hr. unfold cancelOutcome. rewrite Hr. by destruct (isClosed r). Qed.

Lemma earliestRejection_fulfilled t rs :
  Forall (fun r => cancelResult r = None) rs ->
  earliestRejection (cancelPromises t rs) = None.
Proof.
  intros Hall. apply earliestRejection_settled.
  eapply Forall_impl; [exact Hall|]. apply cancelOutcome_ok.
Qed.

Lemma Promise_all_fulfilled t rs :
  Forall (fun r => cancelResult r = None) rs ->
  outcome (Promise_all (cancelPromises t rs)) = Normal tt.
Proof.
  intros Hall. unfold Promise_all. by rewrite earliestRejection_fulfilled.
Qed.



(** The readers of a round at the time of its batch keep how their sources
    answer a cancellation. *)
Lemma batch_cancelResult (P : option JsError -> Prop) pre r suf :
  Forall (fun r' => P (cancelResult r')) (pre ++ r :: suf) ->
  Forall (fun r' => P (cancelResult r')) ((pop <$> pre) ++ ended r :: suf).
Proof.
  intros Hall. apply Forall_app in Hall as [Hpre Hall].
  apply Forall_cons in Hall as [Hr Hsuf].
  apply Forall_app. split; [|by constructor].
  apply Forall_fmap. eapply Forall_impl; [exact Hpre|]. by intros r'.
Qed.

(** *** Whole rounds *)

Lemma readCalls_app i t rs1 rs2 :
  readCalls i t (rs1 ++ rs2) =
    readCalls i t rs1 ++ readCalls (i + length rs1) (readTime t rs1) rs2.
Proof.
  revert i t. induction rs1 as [|r rs1 IH]; intros i t; cbn.
  - by rewrite Nat.add_0_r.
  - by rewrite IH, Nat.add_succ_r.
Qed.

Lemma readTime_snoc t rs r : readTime t (rs ++ [r]) = readTime t rs + readDelay r.
Proof. unfold readTime. by rewrite foldl_snoc. Qed.

(** A round in which every source has a chunk. *)
Lemma pullStep_full w :
  Forall (fun r => chunks r <> []) (readers w) ->
  state (out w) = Readable ->
  pullStep w =
    {| readers := pop <$> readers w;
       out := {| enqueued := enqueued (out w) ++ omap next (readers w);
                 state := Readable |};
       clock := readTime (clock w) (readers w);
       calls := calls w ++ readCalls 0 (clock w) (readers w) |}.
Proof.
  intros Hall Hst. unfold pullStep. rewrite Hst. unfold pull, bind, gets.
  pose proof (pull_from_reads (readers w) [] [] 0 w) as Hloop.
  rewrite app_nil_r, Nat.add_0_r in Hloop. cbn [length app] in Hloop.
  rewrite Hloop by done. cbn. by rewrite app_nil_r.
Qed.

(** A round that meets the end of a source: the batch, then the close. *)
Lemma pullStep_batch w pre r suf :
  readers w = pre ++ r :: suf ->
  Forall (fun r => chunks r <> []) pre ->
  chunks r = [] ->
  ending r = None ->
  state (out w) = Readable ->
  pullStep w =
    match cancel (endedReason (length pre)) (atEnd pre r suf w) with
    | (Normal _, w2) => withOut {| enqueued := enqueued (out w2); state := Closed |} w2
    | (Throw e, w2) => withOut {| enqueued := enqueued (out w2); state := Errored e |} w2
    end.
Proof.
  intros Hrs Hpre Hchunks Hend Hst. unfold pullStep. rewrite Hst.
  unfold pull, bind at 1, gets.
  pose proof (pull_from_reads pre [] (r :: suf) (S (length suf)) w) as Hloop.
  cbn [length app Nat.add] in Hloop.
  replace (length (readers w)) with (length pre + S (length suf))
    by (rewrite Hrs, length_app; done).
  rewrite Hloop by done. clear Hloop.
  rewrite (pull_from_done _ _ _ r); [|cbn; apply list_lookup_middle; by rewrite length_fmap|done..].
  unfold afterRead. cbn [readers clock calls out].
  assert (Hins : <[length pre:=ended r]> ((pop <$> pre) ++ r :: suf)
                 = (pop <$> pre) ++ ended r :: suf).
  { rewrite <- (length_fmap pop pre), <- (Nat.add_0_r (length (pop <$> pre))).
    by rewrite insert_app_r. }
  rewrite Hins.
  match goal with
  | |- context [bind _ _ ?w1] =>
      replace w1 with (atEnd pre r suf w)
        by (unfold atEnd; rewrite readTime_snoc, readCalls_app; cbn;
            by rewrite <- app_assoc)
  end.
  unfold bind. rewrite !cancel_eq.
  destruct (outcome _) as [[]|e]; unfold controller, close, withOut, controllerError; by cbn.
Qed.

(** The time at which the batch of a round ending at [pre ++ [r]] is
    issued, and the promise the round awaits. *)
Lemma pullStep_ended w pre r suf :
  readers w = pre ++ r :: suf ->
  Forall (fun r => chunks r <> []) pre ->
  chunks r = [] ->
  ending r = None ->
  state (out w) = Readable ->
  let t := readTime (clock w) (pre ++ [r]) in
  let batch := (pop <$> pre) ++ ended r :: suf in
  let all := Promise_all (cancelPromises t batch) in
  pullStep w =
    {| readers := released batch;
       out := {| enqueued := enqueued (out w) ++ omap next pre;
                 state := match outcome all with
                          | Normal _ => Closed
                          | Throw e => Errored e
                          end |};
       clock := t `max` settles all;
       calls := calls w ++ readCalls 0 (clock w) (pre ++ [r])
                        ++ cancelCalls (endedReason (length pre)) t batch |}.
Proof.
  intros Hrs Hpre Hchunks Hend Hst t batch all.
  rewrite (pullStep_batch w pre r suf) by done. rewrite cancel_eq.
  unfold atEnd. cbn [readers clock calls out].
  fold t. fold batch. fold all.
  destruct (outcome all) as [[]|e]; unfold withOut; cbn [readers clock calls out enqueued];
    by rewrite <- !app_assoc.
Qed.

(** A round in which the source read at [pre ++ [r]] has errored. *)
Lemma pullStep_failed w pre r suf e :
  readers w = pre ++ r :: suf ->
  Forall (fun r => chunks r <> []) pre ->
  chunks r = [] ->
  ending r = Some e ->
  state (out w) = Readable ->
  pullStep w =
    {| readers := (pop <$> pre) ++ r :: suf;
       out := {| enqueued := enqueued (out w) ++ omap next pre; state := Errored e |};
       clock := readTime (clock w) (pre ++ [r]);
       calls := calls w ++ readCalls 0 (clock w) (pre ++ [r]) |}.
Proof.
  intros Hrs Hpre Hchunks Hend Hst. unfold pullStep. rewrite Hst.
  unfold pull, bind at 1, gets.
  pose proof (pull_from_reads pre [] (r :: suf) (S (length suf)) w) as Hloop.
  cbn [length app Nat.add] in Hloop.
  replace (length (readers w)) with (length pre + S (length suf))
    by (rewrite Hrs, length_app; done).
  rewrite Hloop by done. clear Hloop.
  rewrite (pull_from_failed _ _ _ r e); [|cbn; apply list_lookup_middle; by rewrite length_fmap|done..].
  unfold afterRead, withOut, controllerError. cbn [readers clock calls out state enqueued].
  rewrite list_insert_id by (apply list_lookup_middle; by rewrite length_fmap).
  rewrite readTime_snoc, readCalls_app. cbn [readCalls Nat.add].
  by rewrite <- !app_assoc.
Qed.

(** *** Round-robin order *)

Lemma heads_lookup (ls : list (list T)) :
  Forall (fun l => l <> []) ls ->
  length (omap head ls) = length ls
  /\ forall j, omap head ls !! j = ls !! j ≫= head.
Proof.
  induction 1 as [|l ls Hl _ [IHlen IH]]; [done|].
  destruct l as [|x l]; [done|]. cbn. split; [by rewrite IHlen|].
  intros [|j]; [done|]. apply IH.
Qed.

Lemma roundRobin_length k : forall ls : list (list T),
  Forall (fun l => length l = k) ls ->
  length (roundRobin k ls) = k * length ls.
Proof.
  induction k as [|k IH]; intros ls Hls; [done|]. cbn [roundRobin].
  rewrite length_app, IH, length_fmap.
  - destruct (heads_lookup ls) as [-> _]; [|lia].
    eapply Forall_impl; [done|]. intros [|] ?; done.
  - apply Forall_fmap. eapply Forall_impl; [done|].
    intros [|x l] Hl; cbn in *; lia.
Qed.

Lemma roundRobin_lookup k : forall (ls : list (list T)) j,
  Forall (fun l => length l = k) ls ->
  j < k * length ls ->
  roundRobin k ls !! j =
    ls !! (j `mod` length ls) ≫= (fun l => l !! (j `div` length ls)).
Proof.
  induction k as [|k IH]; intros ls j Hls Hj; [lia|]. cbn [roundRobin].
  assert (Hne : Forall (fun l => l <> []) ls)
    by (eapply Forall_impl; [done|]; intros [|] ?; done).
  assert (Htl : Forall (fun l => length l = k) (tail <$> ls)).
  { apply Forall_fmap. eapply Forall_impl; [exact Hls|].
    intros [|x l] Hl; cbn in *; lia. }
  destruct (heads_lookup ls Hne) as [Hlen Hheads].
  destruct (decide (j < length ls)) as [Hlt|Hge].
  - rewrite lookup_app_l by lia. rewrite Hheads.
    rewrite Nat.mod_small, Nat.div_small by done.
    destruct (ls !! j) as [l|]; [|done]. cbn. apply head_lookup.
  - rewrite lookup_app_r by lia. rewrite Hlen.
    rewrite IH by first [done | rewrite length_fmap; lia].
    rewrite length_fmap, list_lookup_fmap.
    assert (Hn : length ls <> 0) by lia.
    assert (Hmod : j `mod` length ls = (j - length ls) `mod` length ls).
    { rewrite <- (Nat.Div0.mod_add (j - length ls) 1 (length ls)). f_equal. lia. }
    assert (Hdiv : j `div` length ls = S ((j - length ls) `div` length ls)).
    { rewrite <- Nat.add_1_r, <- (Nat.div_add (j - length ls) 1 (length ls)) by done.
      f_equal. lia. }
    rewrite Hmod, Hdiv.
    destruct (ls !! _) as [l|]; [|done]. cbn. apply lookup_tail.
Qed.

Lemma omap_next rs : omap next rs = omap head (chunks <$> rs).
Proof. induction rs as [|r rs IH]; [done|]. cbn. by rewrite IH. Qed.

(** Sources of [k] chunks each: [k] full rounds and the round that ends
    the stream. *)
Lemma drain_equal_lengths k : forall w,
  readers w <> [] ->
  Forall (fun r => length (chunks r) = k) (readers w) ->
  state (out w) = Readable ->
  exists w',
    drain (S k) w = Some w'
    /\ enqueued (out w') = enqueued (out w) ++ roundRobin k (chunks <$> readers w)
    /\ (Forall (fun r => ending r = None /\ cancelResult r = None) (readers w) ->
        state (out w') = Closed).
Proof.
  induction k as [|k IH]; intros w Hne Hlen Hst.
  - destruct (readers w) as [|r suf] eqn:Hrs; [done|]. clear Hne.
    apply Forall_cons in Hlen as [Hr _].
    apply length_zero_iff_nil in Hr.
    exists (pullStep w). cbn [drain]. rewrite Hst.
    destruct (ending r) as [e|] eqn:Hend.
    + rewrite (pullStep_failed w [] r suf e) by done. cbn.
      split_and!; [done|by rewrite !app_nil_r|].
      intros Hgood. apply Forall_cons in Hgood as [[? _] _]. congruence.
    + pose proof (pullStep_ended w [] r suf Hrs (Forall_nil_2 _) Hr Hend Hst) as Hstep.
      cbn zeta in Hstep. rewrite Hstep. cbn [out state enqueued omap].
      split_and!.
      * by destruct (outcome _).
      * cbn. by rewrite !app_nil_r.
      * intros Hgood. rewrite Promise_all_fulfilled; [done|].
        apply (batch_cancelResult (fun o => o = None) [] r suf).
        eapply Forall_impl; [exact Hgood|]. by intros r' [_ ?].
  - assert (Hfull : Forall (fun r => chunks r <> []) (readers w)).
    { eapply Forall_impl; [exact Hlen|].
      intros r Hr Hnil. cbn in Hr. by rewrite Hnil in Hr. }
    pose proof (pullStep_full w Hfull Hst) as Hstep.
    destruct (IH (pullStep w)) as (w' & Hdrain & Henq & Hclosed).
    + rewrite Hstep. cbn. by destruct (readers w).
    + rewrite Hstep. cbn. apply Forall_fmap. eapply Forall_impl; [exact Hlen|].
      intros r Hr. cbn in Hr |- *. destruct (chunks r); cbn in *; lia.
    + by rewrite Hstep.
    + exists w'. split_and!.
      * change (drain (S (S k)) w) with
          (match state (out w) with
           | Readable => drain (S k) (pullStep w)
           | _ => Some w
           end). by rewrite Hst.
      * rewrite Henq, Hstep. cbn [out enqueued readers roundRobin].
        rewrite <- app_assoc. f_equal. f_equal.
        -- apply omap_next.
        -- by rewrite <- !list_fmap_compose.
      * intros Hgood. apply Hclosed. rewrite Hstep. cbn.
        apply Forall_fmap. eapply Forall_impl; [exact Hgood|]. by intros r [? ?].
Qed.

(** C1. For [n >= 1] sources of [k] chunks each, reading the returned
    stream to its end takes [k + 1] pulls and gives [k * n] chunks, chunk
    [j] being chunk [j div n] of source [j mod n]; the stream then closes
    when the sources end and cancel without an error. *)
Theorem zip_equal_lengths (streams : list (Reader T)) (k : nat) :
  1 <= length streams ->
  Forall (fun r => length (chunks r) = k) streams ->
  let n := length streams in
  exists w',
    drain (S k) (earlyZipReadableStreams streams) = Some w'
    /\ length (enqueued (out w')) = k * n
    /\ (forall j, j < k * n ->
          enqueued (out w') !! j =
            streams !! (j `mod` n) ≫= (fun r => chunks r !! (j `div` n)))
    /\ (Forall (fun r => ending r = None /\ cancelResult r = None) streams ->
        state (out w') = Closed).
Proof.
  intros Hn Hlen n.
  assert (Hls : Forall (fun l => length l = k) (chunks <$> streams))
    by (by apply Forall_fmap).
  destruct (drain_equal_lengths k (earlyZipReadableStreams streams))
    as (w' & Hdrain & Henq & Hclosed);
    [intros Hnil; cbn in Hnil; subst; cbn in Hn; lia|done..|].
  cbn in Henq. exists w'. split_and!; [done| | |done].
  - by rewrite Henq, roundRobin_length, length_fmap.
  - intros j Hj. rewrite Henq, roundRobin_lookup by (rewrite ?length_fmap; done).
    rewrite length_fmap, list_lookup_fmap. by destruct (streams !! _).
Qed.

(** C9. Without sources a pull neither gives a chunk nor closes the
    stream: after any number of pulls the stream is as it was returned,
    readable and empty, and reading it to its end never finishes. *)
Theorem zip_no_sources (n : nat) :
  let w := earlyZipReadableStreams (T:=T) [] in
  pull w = (Normal tt, w)
  /\ afterPulls n w = w
  /\ enqueued (out (afterPulls n w)) = []
  /\ state (out (afterPulls n w)) = Readable
  /\ drain n w = None.
Proof.
  intros w.
  assert (Hstep : pullStep w = w) by done.
  assert (Hiter : afterPulls n w = w).
  { unfold afterPulls. induction n as [|n IH]; [done|].
    by rewrite Nat.iter_succ, IH. }
  split_and!; [done|done|by rewrite Hiter..|].
  induction n as [|n IH]; [done|]. cbn [drain]. cbn [w earlyZipReadableStreams out state emptyOutput].
  rewrite Hstep. apply IH. unfold afterPulls.
  clear IH Hiter. induction n as [|n IH]; [done|]. by rewrite Nat.iter_succ, IH.
Qed.

(** *** The batch of cancellations *)


Lemma newCalls_app w w' cs : calls w' = calls w ++ cs -> newCalls w w' = cs.
Proof. intros Hcalls. unfold newCalls. rewrite Hcalls. apply drop_app_length. Qed.



Lemma reads_cancelCalls reason t rs : reads (cancelCalls reason t rs) = [].
Proof.
  unfold cancelCalls, reads.
  assert (Hgen : forall f : nat -> nat,
            omap (fun c => match c with
                           | ReadCall i issued settled => Some (i, (issued, settled))
                           | CancelCall _ _ _ _ => None
                           end)
              (imap (fun j r => CancelCall (f j) reason t (cancelTime t r)) rs) = []).
  { induction rs as [|r rs IH]; intros f; [done|].
    cbn [imap omap list_omap]. apply (IH (f ∘ S)). }
  apply (Hgen id).
Qed.

Lemma reads_app cs1 cs2 : reads (cs1 ++ cs2) = reads cs1 ++ reads cs2.
Proof. apply omap_app. Qed.

Lemma readable_or_not w : state (out w) = Readable \/ state (out w) <> Readable.
Proof. destruct (state (out w)); [by left|by right..]. Qed.

Lemma pullStep_terminal w : state (out w) <> Readable -> pullStep w = w.
Proof. intros Hst. unfold pullStep. by destruct (state (out w)). Qed.

Lemma afterPulls_terminal n w : state (out w) <> Readable -> afterPulls n w = w.
Proof.
  intros Hst. unfold afterPulls. induction n as [|n IH]; [done|].
  by rewrite Nat.iter_succ, IH, pullStep_terminal.
Qed.


(** *** A cancellation by the consumer *)



(** The loop of [pull] is a read, the wait for it and [pull_resume]. *)
Lemma pull_from_resume todo i w :
  pull_from (S todo) i w =
    (p <- readAt i ;; r <- await p ;; pull_resume todo i r)%eff w.
Proof. reflexivity. Qed.





Lemma cancels_app cs1 cs2 : cancels (cs1 ++ cs2) = cancels cs1 ++ cancels cs2.
Proof. apply omap_app. Qed.

Lemma cancels_cancelCalls reason t rs :
  cancels (cancelCalls reason t rs) = (fun j => (j, reason)) <$> seq 0 (length rs).
Proof.
  unfold cancelCalls, cancels.
  assert (Hgen : forall f : nat -> nat,
            omap (fun c => match c with
                           | CancelCall i reason _ _ => Some (i, reason)
                           | ReadCall _ _ _ => None
                           end)
              (imap (fun j r => CancelCall (f j) reason t (cancelTime t r)) rs)
            = (fun j => (f j, reason)) <$> seq 0 (length rs)).
  { induction rs as [|r rs IH]; intros f; [done|].
    cbn [imap omap list_omap length seq fmap list_fmap]. cbn. f_equal.
    rewrite <- fmap_S_seq, <- list_fmap_compose. apply (IH (f ∘ S)). }
  apply (Hgen id).
Qed.


(** *** The order of the reads *)

Lemma chain_cons {A : Type} (R : A -> A -> Prop) a l :
  chain R (a :: l) <-> (forall b, head l = Some b -> R a b) /\ chain R l.
Proof.
  destruct l as [|b l]; cbn.
  - split; [by intros _|done].
  - split.
    + intros [Hab Hl]. split; [by intros ? [= <-]|done].
    + intros [Hab Hl]. split; [by apply Hab|done].
Qed.

Lemma chain_app {A : Type} (R : A -> A -> Prop) l1 l2 :
  chain R l1 -> chain R l2 ->
  (forall a b, last l1 = Some a -> head l2 = Some b -> R a b) ->
  chain R (l1 ++ l2).
Proof.
  induction l1 as [|a l1 IH]; intros Hl1 Hl2 Hjoin; [done|].
  rewrite <- app_comm_cons. apply chain_cons.
  apply chain_cons in Hl1 as [Ha Hl1]. split.
  - intros b Hb. rewrite head_app in Hb.
    destruct (head l1) as [b'|] eqn:Hhead.
    + apply Ha. congruence.
    + apply head_None in Hhead as ->. by apply Hjoin.
  - apply IH; [done..|]. intros a' b Hlast Hhead. apply Hjoin; [|done].
    by rewrite last_cons, Hlast.
Qed.

Lemma reads_readCalls_cons i t r rs :
  reads (readCalls i t (r :: rs)) =
    (i, (t, t + readDelay r)) :: reads (readCalls (S i) (t + readDelay r) rs).
Proof. done. Qed.

Lemma head_readCalls i t rs a :
  head (reads (readCalls i t rs)) = Some a -> a.1 = i /\ a.2.1 = t.
Proof. destruct rs as [|r rs]; [done|]. by intros [= <-]. Qed.

Lemma last_readCalls rs : forall i t a,
  last (reads (readCalls i t rs)) = Some a ->
  S a.1 = i + length rs /\ a.2.2 = readTime t rs.
Proof.
  induction rs as [|r rs IH]; intros i t a; [done|].
  rewrite reads_readCalls_cons, last_cons.
  destruct (last _) as [a'|] eqn:Hlast.
  - intros [= <-]. apply IH in Hlast as [Hi Ht]. cbn. split; [lia|done].
  - intros [= <-]. apply last_None in Hlast.
    destruct rs as [|r' rs]; [|done]. cbn. split; [lia|done].
Qed.

Lemma chain_readCalls n rs : forall i t,
  chain (follows n) (reads (readCalls i t rs)).
Proof.
  induction rs as [|r rs IH]; intros i t; [done|].
  rewrite reads_readCalls_cons. apply chain_cons. split; [|apply IH].
  intros b Hb. apply head_readCalls in Hb as [Hi Ht].
  unfold follows. cbn. split; [lia|by left].
Qed.

Lemma readTime_le rs : forall t, t <= readTime t rs.
Proof.
  induction rs as [|r rs IH]; intros t; [done|]. cbn.
  etrans; [|apply IH]. lia.
Qed.

(** In a round either every source has a chunk, or there is a first source
    that has none. *)
Lemma readers_split rs :
  Forall (fun r => chunks r <> []) rs
  \/ exists pre r suf,
      rs = pre ++ r :: suf /\ Forall (fun r => chunks r <> []) pre /\ chunks r = [].
Proof.
  induction rs as [|r rs [IH|(pre & r' & suf & -> & Hpre & Hr')]].
  - by left.
  - destruct (chunks r) as [|value rest] eqn:Hchunks.
    + right. by exists [], r, rs.
    + left. constructor; [by rewrite Hchunks|done].
  - destruct (chunks r) as [|value rest] eqn:Hchunks.
    + right. by exists [], r, (pre ++ r' :: suf).
    + right. exists (r :: pre), r', suf. split_and!; [done| |done].
      constructor; [by rewrite Hchunks|done].
Qed.

(** What a round adds to the calls: reads on a prefix of the sources, each
    issued when the one before has settled, and then no further read. *)
Lemma pullStep_calls w :
  state (out w) = Readable ->
  exists rs' cs,
    calls (pullStep w) = calls w ++ readCalls 0 (clock w) rs' ++ cs
    /\ reads cs = []
    /\ readTime (clock w) rs' <= clock (pullStep w)
    /\ (state (out (pullStep w)) = Readable -> length rs' = length (readers w))
    /\ length (readers (pullStep w)) = length (readers w).
Proof.
  intros Hst.
  destruct (readers_split (readers w)) as [Hfull|(pre & r & suf & Hrs & Hpre & Hr)].
  - exists (readers w), []. rewrite (pullStep_full w) by done. cbn.
    rewrite app_nil_r, length_fmap. by split_and!.
  - destruct (ending r) as [e|] eqn:Hend.
    + exists (pre ++ [r]), []. rewrite (pullStep_failed w pre r suf e) by done. cbn.
      rewrite app_nil_r, Hrs, !length_app, length_fmap. by split_and!.
    + exists (pre ++ [r]), (cancelCalls (endedReason (length pre))
                              (readTime (clock w) (pre ++ [r]))
                              ((pop <$> pre) ++ ended r :: suf)).
      pose proof (pullStep_ended w pre r suf Hrs Hpre Hr Hend Hst) as Hstep.
      cbn zeta in Hstep. rewrite Hstep. cbn [calls clock out state readers].
      unfold released. rewrite Hrs, length_fmap, !length_app, length_fmap.
      split_and!; [done|apply reads_cancelCalls|apply Nat.le_max_l| |done].
      by destruct (outcome _).
Qed.

Lemma sequential_pullStep w : sequential w -> sequential (pullStep w).
Proof.
  intros (Hchain & Hhead & Hlast).
  destruct (readable_or_not w) as [Hst|Hst];
    [|by rewrite pullStep_terminal].
  destruct (pullStep_calls w Hst) as (rs' & cs & Hcalls & Hcs & Hclock & Hfull & Hlen).
  unfold sequential. rewrite Hlen, Hcalls, !reads_app, Hcs, app_nil_r.
  split_and!.
  - apply chain_app; [done|apply chain_readCalls|].
    intros a b Ha Hb. apply head_readCalls in Hb as [Hi Ht].
    destruct (Hlast a Ha) as [Hsettled Hround]. unfold follows.
    split; [lia|]. right. split; [done|by apply Hround].
  - intros a Ha. apply head_app_Some in Ha as [Ha|[_ Ha]]; [by apply Hhead|].
    by apply head_readCalls in Ha as [? _].
  - intros a Ha. apply last_app_Some in Ha as [Ha|[Hnone Ha]].
    + apply last_readCalls in Ha as [Hi Ht]. split; [lia|].
      intros Hst'. rewrite <- (Hfull Hst'). lia.
    + destruct (Hlast a Ha) as [Hsettled Hround]. split.
      * pose proof (readTime_le rs' (clock w)). lia.
      * intros _. by apply Hround.
Qed.

Lemma sequential_afterPulls n w : sequential w -> sequential (afterPulls n w).
Proof.
  intros Hw. unfold afterPulls. induction n as [|n IH]; [done|].
  rewrite Nat.iter_succ. by apply sequential_pullStep.
Qed.

Lemma length_readers_pullStep w : length (readers (pullStep w)) = length (readers w).
Proof.
  destruct (readable_or_not w) as [Hst|Hst];
    [|by rewrite pullStep_terminal].
  by destruct (pullStep_calls w Hst) as (? & ? & _ & _ & _ & _ & ?).
Qed.

(** C8. Whatever the sources and the number of pulls, the reads the merger
    has made are in this order: the first is on source [0]; a read is
    issued only when the read before it has settled, and it is on the next
    source of the round, or on source [0], opening a new round, when the
    read before it was on the last source, which completed its round. *)
Theorem zip_reads_in_order (streams : list (Reader T)) (pulls : nat) :
  let w := afterPulls pulls (earlyZipReadableStreams streams) in
  chain (follows (length streams)) (reads (calls w))
  /\ (forall a, head (reads (calls w)) = Some a -> a.1 = 0).
Proof.
  intros w.
  assert (Hlen : length (readers w) = length streams).
  { subst w. unfold afterPulls. induction pulls as [|pulls IH]; [done|].
    by rewrite Nat.iter_succ, length_readers_pullStep. }
  assert (Hseq : sequential w).
  { apply sequential_afterPulls. unfold sequential. cbn. by split_and!. }
  destruct Hseq as (Hchain & Hhead & _). by rewrite <- Hlen.
Qed.
End EarlyZipFacts.

Lemma zip_equal_lengths_witness :
  exists w',
    EarlyZip.drain 4
      (EarlyZip.earlyZipReadableStreams
         [EarlyZip.from ["1"; "2"; "3"]; EarlyZip.from ["a"; "b"; "c"]]) = Some w'
    /\ length (enqueued (EarlyZip.out w')) = 3 * 2
    /\ (forall j, j < 3 * 2 ->
          enqueued (EarlyZip.out w') !! j =
            [EarlyZip.from ["1"; "2"; "3"]; EarlyZip.from ["a"; "b"; "c"]] !! (j `mod` 2)
              ≫= (fun r => EarlyZip.chunks r !! (j `div` 2)))
    /\ (Forall (fun r => EarlyZip.ending r = None /\ EarlyZip.cancelResult r = None)
          [EarlyZip.from ["1"; "2"; "3"]; EarlyZip.from ["a"; "b"; "c"]] ->
        state (EarlyZip.out w') = Closed).
Proof.
  apply (zip_equal_lengths
           [EarlyZip.from ["1"; "2"; "3"]; EarlyZip.from ["a"; "b"; "c"]] 3).
  - simpl. lia.
  - repeat constructor.
Defined.







(** * The examples of the documentation *)

Example zip_same_length :
  (fun w => (enqueued (EarlyZip.out w), state (EarlyZip.out w))) <$>
    EarlyZip.drain 4
      (EarlyZip.earlyZipReadableStreams
         [EarlyZip.from ["1"; "2"; "3"]; EarlyZip.from ["a"; "b"; "c"]])
  = Some (["1"; "a"; "2"; "b"; "3"; "c"], Closed).
Proof. reflexivity. Qed.

Example zip_first_shorter :
  (fun w => (enqueued (EarlyZip.out w), state (EarlyZip.out w))) <$>
    EarlyZip.drain 3
      (EarlyZip.earlyZipReadableStreams
         [EarlyZip.from ["1"; "2"]; EarlyZip.from ["a"; "b"; "c"; "d"]])
  = Some (["1"; "a"; "2"; "b"], Closed).
Proof. reflexivity. Qed.

Example zip_first_longer :
  (fun w => (enqueued (EarlyZip.out w), state (EarlyZip.out w))) <$>
    EarlyZip.drain 3
      (EarlyZip.earlyZipReadableStreams
         [EarlyZip.from ["1"; "2"; "3"; "4"]; EarlyZip.from ["a"; "b"]])
  = Some (["1"; "a"; "2"; "b"; "3"], Closed).
Proof. reflexivity. Qed.

Example zip_three_streams :
  (fun w => (enqueued (EarlyZip.out w), state (EarlyZip.out w))) <$>
    EarlyZip.drain 2
      (EarlyZip.earlyZipReadableStreams
         [EarlyZip.from ["1"]; EarlyZip.from ["a"; "b"]; EarlyZip.from ["A"; "B"; "C"]])
  = Some (["1"; "a"; "A"], Closed).
Proof. reflexivity. Qed.

Example limited_size_equal :
  Limited.output (Limited.pipeThrough 2 Limited.defaultOptions ["1234"; "5678"] Limited.new)
  = (["1234"; "5678"], Closed).
Proof. reflexivity. Qed.

Example limited_size_less :
  Limited.output (Limited.pipeThrough 1 Limited.defaultOptions ["1234"; "5678"] Limited.new)
  = (["1234"], Closed).
Proof. reflexivity. Qed.

Example limited_size_less_error :
  Limited.output
    (Limited.pipeThrough 1 {| Limited.error := true |} ["1234"; "5678"] Limited.new)
  = (["1234"], Errored (RangeError "Exceeded chunk limit of '1'")).
Proof. reflexivity. Qed.

(** * Further properties of [LimitedTransformStream] *)

Section LimitedMore.
Import Limited.
Context {T : Type} `{NumberToString}.
Implicit Types (s : LimitedTransformStream T) (chunk : T) (chunks rest : list T).
Implicit Types (options : LimitedTransformStreamOptions).

Local Open Scope Z_scope.

(** X1. Whatever the size, the option and the chunks piped through a new
    instance, the counter [#read] ends as the number of chunks the stream
    has forwarded. *)
Theorem read_counts_forwarded (size : Z) options chunks :
  let s := pipeThrough size options chunks new in
  read s = Z.of_nat (length (enqueued (readable s))).
Proof.
  intros s.
  destruct (pipeThrough_readable size options chunks new eq_refl) as (Henq & _ & Hread).
  fold s in Henq, Hread. rewrite Henq, Hread. cbn. rewrite length_take. lia.
Qed.

(** X2. [options.error] changes how the stream ends and nothing else: with
    the option on or off the same chunks are forwarded and the counter is
    the same; with it off the stream always closes cleanly, with it on it
    closes cleanly exactly when the input has no more chunks than the
    limit lets through, and is otherwise errored with the [RangeError]
    whose message holds [size] as the platform prints it. *)
Theorem error_option_only_ending (size : Z) chunks :
  let off := pipeThrough size {| error := false |} chunks new in
  let on := pipeThrough size {| error := true |} chunks new in
  enqueued (readable on) = enqueued (readable off)
  /\ read on = read off
  /\ state (readable off) = Closed
  /\ (state (readable on) = Closed <-> Z.of_nat (length chunks) <= Z.max 0 size)
  /\ (state (readable on) = Closed
      \/ state (readable on) = Errored (RangeError (limitMessage size))).
Proof.
  intros off on.
  destruct (pipeThrough_readable size {| error := false |} chunks new eq_refl)
    as (Henq0 & Hst0 & Hread0).
  destruct (pipeThrough_readable size {| error := true |} chunks new eq_refl)
    as (Henq1 & Hst1 & Hread1).
  fold off in Henq0, Hst0, Hread0. fold on in Henq1, Hst1, Hread1.
  assert (Hroom : room size (new (T:=T)) = Z.to_nat size)
    by (unfold room; cbn; f_equal; lia).
  rewrite Hroom in *. cbn [error] in Hst0, Hst1.
  split_and!.
  - by rewrite Henq0, Henq1.
  - by rewrite Hread0, Hread1.
  - rewrite Hst0. by destruct (decide _).
  - rewrite Hst1. destruct (decide _) as [Hle|Hgt]; split; try done; lia.
  - rewrite Hst1. destruct (decide _); [by left|by right].
Qed.

(** X3. Two limiters in a row, both with [options.error] off: piping what a
    limiter of size [k] lets through into a limiter of size [j] gives what
    one limiter of the smaller size gives, in either order. *)
Theorem limiters_compose (k j : Z) chunks :
  let first := pipeThrough k defaultOptions chunks new in
  let second := pipeThrough j defaultOptions (enqueued (readable first)) new in
  output second = (take (Z.to_nat (Z.min k j)) chunks, Closed)
  /\ output second = output (pipeThrough (Z.min k j) defaultOptions chunks new)
  /\ output second =
       output (pipeThrough k defaultOptions
                 (enqueued (readable (pipeThrough j defaultOptions chunks new))) new).
Proof.
  intros first second.
  assert (Hone : forall (size : Z) (l : list T),
            output (pipeThrough size defaultOptions l new) = (take (Z.to_nat size) l, Closed)).
  { intros size l.
    destruct (pipeThrough_readable size defaultOptions l new eq_refl) as (Henq & Hst & _).
    unfold output. rewrite Henq, Hst. cbn [error defaultOptions].
    replace (room size (new (T:=T))) with (Z.to_nat size)
      by (unfold room; cbn; f_equal; lia).
    cbn [enqueued readable new emptyOutput app]. f_equal.
    by destruct (decide (length l <= Z.to_nat size)%nat). }
  assert (Hfirst : forall (a b : Z) (l : list T),
            output (pipeThrough b defaultOptions
                      (enqueued (readable (pipeThrough a defaultOptions l new))) new)
            = (take (Z.to_nat (Z.min a b)) l, Closed)).
  { intros a b l. rewrite Hone.
    pose proof (Hone a l) as Ha. unfold output in Ha. injection Ha as -> _.
    by rewrite take_take, Z2Nat.inj_min, Nat.min_comm. }
  split_and!.
  - apply Hfirst.
  - subst second first. by rewrite Hfirst, Hone.
  - subst second first. by rewrite !Hfirst, Z.min_comm.
Qed.
End LimitedMore.

(** * Further properties of [earlyZipReadableStreams] *)

Section EarlyZipMore.
Import EarlyZip.
Context {T : Type}.
Implicit Types (w : Zip T) (r : Reader T) (rs pre mid suf : list (Reader T)).
Implicit Types (i j n todo t : nat) (reason : string).

Lemma drain_readable fuel w :
  state (out w) = Readable -> drain (S fuel) w = drain fuel (pullStep w).
Proof. intros Hst. cbn [drain]. by rewrite Hst. Qed.

Lemma drain_terminal fuel w : state (out w) <> Readable -> drain fuel w = Some w.
Proof. intros Hst. destruct fuel; cbn [drain]; by destruct (state (out w)). Qed.

(** *** Sources of different lengths *)








(** *** A source that fails *)

Lemma cancels_readCalls rs : forall i t, cancels (readCalls i t rs) = [].
Proof. induction rs as [|r rs IH]; intros i t; [done|]. cbn. apply IH. Qed.

(** X5. When, in a round, the reads of the sources before index [i] gave a
    chunk each and the read of source [i] is rejected with [e], the stream
    is errored with [e] after these [i + 1] reads; no reader is cancelled,
    in this round or later, and the sources from [i] on keep the chunks
    they have. *)
Theorem zip_read_rejected w pre r suf (e : JsError) :
  readers w = pre ++ r :: suf ->
  Forall (fun r => chunks r <> []) pre ->
  chunks r = [] ->
  ending r = Some e ->
  state (out w) = Readable ->
  let w' := pullStep w in
  state (out w') = Errored e
  /\ enqueued (out w') = enqueued (out w) ++ omap next pre
  /\ newCalls w w' = readCalls 0 (clock w) (pre ++ [r])
  /\ readers w' = (pop <$> pre) ++ r :: suf
  /\ (forall pulls, cancels (calls (afterPulls pulls w')) = cancels (calls w)).
Proof.
  intros Hrs Hpre Hchunks Hend Hst w'.
  pose proof (pullStep_failed w pre r suf e Hrs Hpre Hchunks Hend Hst) as Hstep.
  subst w'. split_and!; [by rewrite Hstep..| | |].
  - apply newCalls_app. by rewrite Hstep.
  - by rewrite Hstep.
  - intros pulls. rewrite afterPulls_terminal by (by rewrite Hstep).
    rewrite Hstep. cbn [calls].
    by rewrite cancels_app, cancels_readCalls, app_nil_r.
Qed.

(** *** Every source is cancelled at most once *)

(** While the stream is readable no reader has been cancelled; afterwards
    either none has, or each has once, with the reason of one index. *)
Lemma cancels_pullStep w :
  (state (out w) = Readable -> cancels (calls w) = []) ->
  (state (out (pullStep w)) = Readable -> cancels (calls (pullStep w)) = [])
  /\ (cancels (calls (pullStep w)) = cancels (calls w)
      \/ exists i, i < length (readers w)
           /\ cancels (calls (pullStep w)) =
                (fun j => (j, endedReason i)) <$> seq 0 (length (readers w))).
Proof.
  intros Hnone.
  destruct (readable_or_not w) as [Hst|Hst];
    [|rewrite pullStep_terminal by done; split; [done|by left]].
  specialize (Hnone Hst).
  destruct (readers_split (readers w)) as [Hfull|(pre & r & suf & Hrs & Hpre & Hr)].
  - rewrite (pullStep_full w) by done. cbn [calls out state].
    rewrite cancels_app, cancels_readCalls, app_nil_r. split; [done|by left].
  - destruct (ending r) as [e|] eqn:Hend.
    + rewrite (pullStep_failed w pre r suf e) by done. cbn [calls out state].
      rewrite cancels_app, cancels_readCalls, app_nil_r. split; [done|by left].
    + pose proof (pullStep_ended w pre r suf Hrs Hpre Hr Hend Hst) as Hstep.
      cbn zeta in Hstep. rewrite Hstep. cbn [calls out state]. split.
      * by destruct (outcome _).
      * right. exists (length pre). split; [rewrite Hrs, length_app; cbn; lia|].
        rewrite !cancels_app, cancels_readCalls, cancels_cancelCalls, Hnone.
        by rewrite Hrs, !length_app, length_fmap.
Qed.

(** X6. Whatever the sources and the number of pulls, the pulls have
    cancelled either no reader or every reader exactly once, all with the
    reason that names one and the same index; and as long as the stream is
    readable no reader has been cancelled. *)
Theorem zip_cancels_at_most_once (streams : list (Reader T)) (pulls : nat) :
  let w := afterPulls pulls (earlyZipReadableStreams streams) in
  let n := length streams in
  (state (out w) = Readable -> cancels (calls w) = [])
  /\ (cancels (calls w) = []
      \/ exists i, i < n
           /\ cancels (calls w) =
                (fun j => (j, "Stream at index " +:+ pretty i +:+ " ended")) <$> seq 0 n).
Proof.
  intros w n. subst w. unfold afterPulls.
  induction pulls as [|pulls (IHnone & IH)]; [by split; [|left]|].
  rewrite Nat.iter_succ.
  set (w := Nat.iter pulls pullStep (earlyZipReadableStreams streams)) in *.
  assert (Hlen : length (readers w) = n).
  { subst w n. clear IHnone IH. induction pulls as [|pulls IH]; [done|].
    by rewrite Nat.iter_succ, length_readers_pullStep. }
  destruct (cancels_pullStep w IHnone) as (Hnone' & Hstep). split; [done|].
  destruct Hstep as [Hsame|(i & Hi & Hall)].
  - by rewrite Hsame.
  - right. exists i. by rewrite <- Hlen.
Qed.

(** *** No source runs ahead *)

Lemma readCount_app j cs1 cs2 :
  readCount j (cs1 ++ cs2) = readCount j cs1 + readCount j cs2.
Proof. unfold readCount. by rewrite reads_app, filter_app, length_app. Qed.

Lemma readCount_cancelCalls j reason t rs : readCount j (cancelCalls reason t rs) = 0.
Proof. unfold readCount. by rewrite reads_cancelCalls. Qed.

Lemma readCount_readCalls j rs : forall i t,
  readCount j (readCalls i t rs) = if decide (i <= j < i + length rs) then 1 else 0.
Proof.
  unfold readCount.
  induction rs as [|r rs IH]; intros i t.
  - cbn. by rewrite decide_False by lia.
  - rewrite reads_readCalls_cons, filter_cons. cbn [fst length].
    specialize (IH (S i) (t + readDelay r)).
    destruct (decide (i = j)) as [->|Hne].
    + cbn [length]. rewrite IH, decide_False by lia. by rewrite decide_True by lia.
    + rewrite IH.
      destruct (decide (S i <= j < S i + length rs));
        [rewrite decide_True by lia | rewrite decide_False by lia]; done.
Qed.

(** The reads are balanced: an earlier source has been read as often as a
    later one, or once more; and all as often while the stream is readable. *)
Lemma balanced_pullStep w :
  (forall j j', j <= j' -> j' < length (readers w) ->
     readCount j' (calls w) <= readCount j (calls w) <= readCount j' (calls w) + 1) ->
  (state (out w) = Readable ->
     forall j j', j < length (readers w) -> j' < length (readers w) ->
       readCount j (calls w) = readCount j' (calls w)) ->
  (forall j j', j <= j' -> j' < length (readers w) ->
     readCount j' (calls (pullStep w)) <= readCount j (calls (pullStep w))
       <= readCount j' (calls (pullStep w)) + 1)
  /\ (state (out (pullStep w)) = Readable ->
      forall j j', j < length (readers w) -> j' < length (readers w) ->
        readCount j (calls (pullStep w)) = readCount j' (calls (pullStep w))).
Proof.
  intros Hbal Heq.
  destruct (readable_or_not w) as [Hst|Hst];
    [|rewrite pullStep_terminal by done; split; [done|]; intros Hst'; by destruct Hst].
  specialize (Heq Hst).
  destruct (pullStep_calls w Hst) as (rs' & cs & Hcalls & Hcs & _ & Hfull & _).
  assert (Hcount : forall j, readCount j (calls (pullStep w)) =
            readCount j (calls w) + if decide (j < length rs') then 1 else 0).
  { intros j. rewrite Hcalls, !readCount_app, readCount_readCalls.
    replace (readCount j cs) with 0 by (unfold readCount; by rewrite Hcs).
    destruct (decide (j < length rs'));
      [rewrite decide_True by lia | rewrite decide_False by lia]; cbn; lia. }
  split.
  - intros j j' Hle Hj'. rewrite !Hcount.
    rewrite (Heq j j') by lia.
    destruct (decide (j < length rs')), (decide (j' < length rs')); lia.
  - intros Hst' j j' Hj Hj'. rewrite !Hcount, (Heq j j') by done.
    rewrite !decide_True by (rewrite (Hfull Hst'); done). done.
Qed.

(** X7. No source runs ahead of another.  Whatever the sources and the
    number of pulls, a source has been read as often as any source after
    it, or once more; so the numbers of reads of two sources never differ
    by more than one. *)
Theorem zip_reads_balanced (streams : list (Reader T)) (pulls j j' : nat) :
  j <= j' ->
  j' < length streams ->
  let w := afterPulls pulls (earlyZipReadableStreams streams) in
  readCount j' (calls w) <= readCount j (calls w) <= readCount j' (calls w) + 1.
Proof.
  intros Hle Hj' w. revert j j' Hle Hj'.
  assert (Hinv :
    length (readers w) = length streams
    /\ (forall j j', j <= j' -> j' < length (readers w) ->
          readCount j' (calls w) <= readCount j (calls w) <= readCount j' (calls w) + 1)
    /\ (state (out w) = Readable ->
        forall j j', j < length (readers w) -> j' < length (readers w) ->
          readCount j (calls w) = readCount j' (calls w))).
  { subst w. unfold afterPulls.
    induction pulls as [|pulls (IHlen & IHbal & IHeq)].
    - cbn. split_and!; [done| |done]. intros; unfold readCount; cbn; lia.
    - rewrite Nat.iter_succ.
      set (w := Nat.iter pulls pullStep (earlyZipReadableStreams streams)) in *.
      rewrite length_readers_pullStep. split; [done|].
      by apply balanced_pullStep. }
  destruct Hinv as (Hlen & Hbal & _). intros j j' Hle Hj'.
  apply Hbal; [done|by rewrite Hlen].
Qed.

(** *** One source *)

Lemma roundRobin_single (l : list T) : roundRobin (length l) [l] = l.
Proof. induction l as [|x l IH]; [done|]. cbn. by rewrite IH. Qed.

(** X8. A single source that ends and cancels without an error is passed
    through: the returned stream gives its chunks, in order, and closes,
    after one pull per chunk and one more. *)
Theorem zip_single_source r :
  ending r = None ->
  cancelResult r = None ->
  exists w',
    drain (S (length (chunks r))) (earlyZipReadableStreams [r]) = Some w'
    /\ enqueued (out w') = chunks r
    /\ state (out w') = Closed.
Proof.
  intros Hend Hcancel.
  destruct (drain_equal_lengths (length (chunks r)) (earlyZipReadableStreams [r]))
    as (w' & Hdrain & Henq & Hclosed); [done|by repeat constructor|done|].
  exists w'. split_and!; [done| |].
  - rewrite Henq. cbn. apply roundRobin_single.
  - apply Hclosed. by repeat constructor.
Qed.

(** *** With a source, reading ends *)

Lemma drain_Some fuel : forall w w', drain fuel w = Some w' -> state (out w') <> Readable.
Proof.
  induction fuel as [|fuel IH]; intros w w'; cbn [drain];
    destruct (state (out w)) eqn:Hst; try done;
    try (intros [= <-]; by rewrite Hst).
  apply IH.
Qed.

Lemma drain_first_source k : forall w r rs,
  readers w = r :: rs ->
  length (chunks r) <= k ->
  exists w', drain (S k) w = Some w'.
Proof.
  induction k as [|k IH]; intros w r rs Hrs Hlen.
  - destruct (readable_or_not w) as [Hst|Hst];
      [|exists w; by apply drain_terminal].
    rewrite drain_readable by done. exists (pullStep w). apply drain_terminal.
    destruct (readers_split (readers w)) as [Hfull|(pre & r' & suf & Hrs' & Hpre & Hr')].
    + rewrite Hrs in Hfull. apply Forall_cons in Hfull as [Hr _].
      destruct (chunks r); [done|cbn in Hlen; lia].
    + destruct (ending r') as [e|] eqn:Hend.
      * by rewrite (pullStep_failed w pre r' suf e).
      * pose proof (pullStep_ended w pre r' suf Hrs' Hpre Hr' Hend Hst) as Hstep.
        cbn zeta in Hstep. rewrite Hstep. cbn. by destruct (outcome _).
  - destruct (readable_or_not w) as [Hst|Hst];
      [|exists w; by apply drain_terminal].
    rewrite drain_readable by done.
    destruct (readers_split (readers w)) as [Hfull|(pre & r' & suf & Hrs' & Hpre & Hr')].
    + apply (IH (pullStep w) (pop r) (pop <$> rs)).
      * rewrite (pullStep_full w) by done. cbn. by rewrite Hrs.
      * cbn. destruct (chunks r); cbn in *; lia.
    + exists (pullStep w). apply drain_terminal.
      destruct (ending r') as [e|] eqn:Hend.
      * by rewrite (pullStep_failed w pre r' suf e).
      * pose proof (pullStep_ended w pre r' suf Hrs' Hpre Hr' Hend Hst) as Hstep.
        cbn zeta in Hstep. rewrite Hstep. cbn. by destruct (outcome _).
Qed.

(** X10. With at least one source, reading the returned stream to its end
    finishes, whatever the sources do: one pull more than the first source
    has chunks is enough to bring the stream to a terminal state. *)
Theorem zip_terminates r rs :
  exists w',
    drain (S (length (chunks r))) (earlyZipReadableStreams (r :: rs)) = Some w'
    /\ state (out w') <> Readable.
Proof.
  destruct (drain_first_source (length (chunks r)) (earlyZipReadableStreams (r :: rs)) r rs)
    as [w' Hdrain]; [done..|].
  exists w'. split; [done|]. by eapply drain_Some.
Qed.
End EarlyZipMore.


Lemma zip_read_rejected_witness :
  state
    (EarlyZip.out
       (EarlyZip.pullStep
          (EarlyZip.earlyZipReadableStreams
             [EarlyZip.from ["1"; "2"];
              {| EarlyZip.chunks := []; EarlyZip.ending := Some (Failure "lost");
                 EarlyZip.readDelay := 0; EarlyZip.cancelDelay := 0;
                 EarlyZip.cancelResult := None; EarlyZip.closed := false |};
              EarlyZip.from ["a"]])))
  = Errored (Failure "lost").
Proof.
  apply (zip_read_rejected
           (EarlyZip.earlyZipReadableStreams
              [EarlyZip.from ["1"; "2"];
               {| EarlyZip.chunks := []; EarlyZip.ending := Some (Failure "lost");
                  EarlyZip.readDelay := 0; EarlyZip.cancelDelay := 0;
                  EarlyZip.cancelResult := None; EarlyZip.closed := false |};
               EarlyZip.from ["a"]])
           [EarlyZip.from ["1"; "2"]]
           {| EarlyZip.chunks := []; EarlyZip.ending := Some (Failure "lost");
              EarlyZip.readDelay := 0; EarlyZip.cancelDelay := 0;
              EarlyZip.cancelResult := None; EarlyZip.closed := false |}
           [EarlyZip.from ["a"]] (Failure "lost"));
    [reflexivity | repeat constructor; discriminate | reflexivity..].
Defined.

Lemma zip_reads_balanced_witness :
  EarlyZip.readCount 1
    (EarlyZip.calls
       (EarlyZip.afterPulls 3
          (EarlyZip.earlyZipReadableStreams
             [EarlyZip.from ["1"; "2"; "3"; "4"]; EarlyZip.from ["a"; "b"]])))
  <= EarlyZip.readCount 0
       (EarlyZip.calls
          (EarlyZip.afterPulls 3
             (EarlyZip.earlyZipReadableStreams
                [EarlyZip.from ["1"; "2"; "3"; "4"]; EarlyZip.from ["a"; "b"]])))
  <= EarlyZip.readCount 1
       (EarlyZip.calls
          (EarlyZip.afterPulls 3
             (EarlyZip.earlyZipReadableStreams
                [EarlyZip.from ["1"; "2"; "3"; "4"]; EarlyZip.from ["a"; "b"]]))) + 1.
Proof.
  apply (zip_reads_balanced
           [EarlyZip.from ["1"; "2"; "3"; "4"]; EarlyZip.from ["a"; "b"]] 3 0 1);
    simpl; lia.
Defined.

Lemma zip_single_source_witness :
  exists w',
    EarlyZip.drain 3 (EarlyZip.earlyZipReadableStreams [EarlyZip.from ["1"; "2"]]) = Some w'
    /\ enqueued (EarlyZip.out w') = ["1"; "2"]
    /\ state (EarlyZip.out w') = Closed.
Proof.
  apply (zip_single_source (EarlyZip.from ["1"; "2"])); reflexivity.
Defined.
